(** * The real-time messaging core of [backend/server.js]

    A shallow embedding of the four socket handlers registered in
    [io.on("connection", ...)] (lines 69-86 of [backend/server.js]) and of the
    two pieces of state they act on:

    - the room table of the socket.io adapter ([socket.join], [io.to(..).emit]);
    - the [Message] collection of the mongoose model declared on lines 43-49
      ([new Message], [message.save], [Message.updateMany]).

    Every handler is run to completion before the next input is taken, i.e. the
    interleavings that the two [await]s allow are not part of this model. *)

From stdpp Require Import gmap strings list fin_maps.
From Stdlib Require Import ZArith NArith.

#[local] Set Warnings "-clear-no-such-hyp".

Local Open Scope string_scope.
Local Open Scope list_scope.

(** ** Data *)

(** socket.io identifies a socket by [socket.id] and a room by its name; the
    handlers use user identities as room names. *)
Abbreviation SocketId := string.
Abbreviation Room := string.

(** A document of the [Message] model (schema on lines 43-49), with the [_id]
    mongoose gives to every document. [timestamp] is a [Date], kept as its
    number of milliseconds. *)
Record Message := mkMessage {
  msg_id : N;
  msg_from : string;
  msg_to : string;
  msg_text : string;
  msg_timestamp : Z;
  msg_read : bool;
}.

(** What [emit] can carry: a [Message] document, or an object literal with
    string fields such as [{ from, to }]. *)
Inductive arg :=
  | ADoc (m : Message)
  | AObj (fields : list (string * string)).

(** One event written to one socket: its name and the arguments after it. *)
Record packet := mkPacket {
  pk_socket : SocketId;
  pk_event : string;
  pk_args : list arg;
}.

(** The state of the process: the connected sockets and the room table of the
    adapter, the [Message] collection in insertion order, and the counter the
    next [_id] is drawn from. *)
Record world := mkWorld {
  sockets : gset SocketId;
  rooms : gmap Room (gset SocketId);
  collection : list Message;
  oid : N;
}.

Definition boot : world :=
  {| sockets := ∅; rooms := ∅; collection := []; oid := 0%N |}.

(** What the surroundings contribute to one handler run: the clock at the
    time the listener is called, which is what [new Date()] reads on its first
    line, and whether the database answers. *)
Record env := mkEnv {
  now : Z;
  db_up : bool;
}.

(** The two kinds of error of the messaging core. The mongoose schema has
    neither [required] fields nor validators, and the embedding keeps every
    field a string, so a write is only ever refused by the database. *)
Inductive error :=
  | ValidationError
  | StorageError.

(** ** Handlers as computations

    An [async] handler settles (fulfilled with a value, or rejected with an
    error), leaves a new state and has written some packets. *)
Inductive settled (A : Type) :=
  | Fulfilled (a : A)
  | Rejected (e : error).
Arguments Fulfilled {A} a.
Arguments Rejected {A} e.

Definition Async (A : Type) : Type := world → settled A * world * list packet.

#[global] Instance Async_ret : MRet Async := λ A a w, (Fulfilled a, w, []).

(** Sequencing as [await] does it: a rejection skips what follows. *)
#[global] Instance Async_bind : MBind Async := λ A B k m w,
  match m w with
  | (Fulfilled a, w1, out1) =>
      match k a w1 with
      | (r, w2, out2) => (r, w2, out1 ++ out2)
      end
  | (Rejected e, w1, out1) => (Rejected e, w1, out1)
  end.

Definition outcome {A} (r : settled A * world * list packet) : settled A := r.1.1.
Definition after {A} (r : settled A * world * list packet) : world := r.1.2.
Definition written {A} (r : settled A * world * list packet) : list packet := r.2.

(** ** The socket.io adapter *)

(** The sockets in a room; a room that is not in the table has none. *)
Definition members (w : world) (room : Room) : gset SocketId :=
  default ∅ (rooms w !! room).

(** [socket.join(room)]: the socket is added to the room, which is created
    when it is new. Nothing else in the table changes. *)
Definition socket_join (socket : SocketId) (room : Room) : Async unit := λ w,
  (Fulfilled tt,
   {| sockets := sockets w;
      rooms := <[room := {[socket]} ∪ members w room]> (rooms w);
      collection := collection w;
      oid := oid w |},
   []).

(** [io.to(room).emit(ev, ...args)]: one packet to every socket of the room. *)
Definition io_to_emit (room : Room) (ev : string) (args : list arg) : Async unit := λ w,
  (Fulfilled tt, w, (λ s, mkPacket s ev args) <$> elements (members w room)).

(** ** The Message model *)

(** [new Date()] *)
Definition new_Date (e : env) : Async Z := λ w, (Fulfilled (now e), w, []).

(** [new Message({ from, to, text, timestamp, read })]: the document gets its
    [_id] when it is built, before anything is written. *)
Definition new_Message (from to text : string) (timestamp : Z) (read : bool)
  : Async Message := λ w,
  (Fulfilled (mkMessage (oid w) from to text timestamp read),
   {| sockets := sockets w; rooms := rooms w;
      collection := collection w; oid := N.succ (oid w) |},
   []).

(** [message.save()]: the document is appended to the collection, or the
    promise is rejected when the database does not answer. The fields of a
    document are strings here; a payload field that mongoose cannot cast to
    [String] is outside this embedding. *)
Definition Message_save (e : env) (m : Message) : Async unit := λ w,
  if db_up e then
    (Fulfilled tt,
     {| sockets := sockets w; rooms := rooms w;
        collection := collection w ++ [m]; oid := oid w |},
     [])
  else (Rejected StorageError, w, []).

(** The filter [{ from, to, read: false }]. *)
Definition matches (from to : string) (m : Message) : bool :=
  bool_decide (msg_from m = from) && bool_decide (msg_to m = to)
  && negb (msg_read m).

(** The update [{ read: true }]. *)
Definition set_read (m : Message) : Message :=
  mkMessage (msg_id m) (msg_from m) (msg_to m) (msg_text m) (msg_timestamp m) true.

(** [updateMany({ from, to, read: false }, { read: true })] on the documents:
    the new collection and the [modifiedCount] of the result. *)
Definition updateMany (from to : string) (c : list Message) : list Message * nat :=
  ((λ m, if matches from to m then set_read m else m) <$> c,
   length (List.filter (matches from to) c)).

(** [Message.updateMany({ from, to, read: false }, { read: true })] *)
Definition Message_updateMany (e : env) (from to : string) : Async nat := λ w,
  if db_up e then
    (Fulfilled (updateMany from to (collection w)).2,
     {| sockets := sockets w; rooms := rooms w;
        collection := (updateMany from to (collection w)).1; oid := oid w |},
     [])
  else (Rejected StorageError, w, []).

(** ** The handlers of lines 69-86 *)

(** The object a client sends with ["message"]. The handler destructures
    [{ from, to, text }]; whatever else the object holds is [p_rest]. *)
Record message_payload := mkPayload {
  p_from : string;
  p_to : string;
  p_text : string;
  p_rest : list (string * string);
}.

(** Line 70: [socket.on("join", (userId) => socket.join(userId))] *)
Definition on_join (socket : SocketId) (userId : string) : Async unit :=
  socket_join socket userId.

(** Lines 72-74: [io.to(to).emit("typing")] *)
Definition on_typing (to : string) : Async unit :=
  io_to_emit to "typing" [].

(** Lines 77-78: the document is built with the clock of the server and
    [read: false], and written. This is the store's [save] operation. *)
Definition save (e : env) (from to text : string) : Async Message :=
  timestamp ← new_Date e;
  message ← new_Message from to text timestamp false;
  Message_save e message;;
  mret message.

(** Lines 76-80: save, then [io.to(to).emit("message", message)] *)
Definition on_message (e : env) (p : message_payload) : Async unit :=
  message ← save e (p_from p) (p_to p) (p_text p);
  io_to_emit (p_to p) "message" [ADoc message].

(** Lines 82-85: the update, then
    [io.to(from).emit("read-receipt", { from, to })] *)
Definition on_read (e : env) (from to : string) : Async unit :=
  Message_updateMany e from to;;
  io_to_emit from "read-receipt" [AObj [("from", from); ("to", to)]].

(** ** The transport *)

Inductive event :=
  | Join (userId : string)
  | Typing (to : string)
  | MessageEv (p : message_payload)
  | Read (from to : string).

Inductive input :=
  | Connection (socket : SocketId)
  | Disconnect (socket : SocketId)
  | Recv (socket : SocketId) (e : env) (ev : event).

(** The listeners the connection callback registers on [socket]. Only the
    ["join"] listener mentions [socket]. *)
Definition listeners (socket : SocketId) (e : env) (ev : event) : Async unit :=
  match ev with
  | Join userId => on_join socket userId
  | Typing to => on_typing to
  | MessageEv p => on_message e p
  | Read from to => on_read e from to
  end.

(** A new socket: socket.io puts it in the room named by its own id and then
    calls the connection callback, which only registers the listeners. *)
Definition connect (socket : SocketId) : Async unit := λ w,
  socket_join socket socket
    {| sockets := {[socket]} ∪ sockets w; rooms := rooms w;
       collection := collection w; oid := oid w |}.

(** A socket that goes away: socket.io takes it out of every room and drops
    the rooms that become empty. The code has no ["disconnect"] listener. *)
Definition leave_all (socket : SocketId) (rs : gmap Room (gset SocketId))
  : gmap Room (gset SocketId) :=
  omap (λ s, if decide (s ∖ {[socket]} = ∅) then None else Some (s ∖ {[socket]})) rs.

Definition disconnect (socket : SocketId) : Async unit := λ w,
  (Fulfilled tt,
   {| sockets := sockets w ∖ {[socket]};
      rooms := leave_all socket (rooms w);
      collection := collection w; oid := oid w |},
   []).

(** One input. socket.io calls a listener only for a connected socket. *)
Definition step (i : input) : Async unit :=
  match i with
  | Connection socket => connect socket
  | Disconnect socket => disconnect socket
  | Recv socket e ev => λ w,
      if decide (socket ∈ sockets w) then listeners socket e ev w
      else (Fulfilled tt, w, [])
  end.

(** A run of the server from [boot]: the state reached and all packets
    written. A run goes on after a rejected handler; the runs of a runtime
    that stops there are among its prefixes. *)
Definition exec (acc : world * list packet) (i : input) : world * list packet :=
  (after (step i acc.1), acc.2 ++ written (step i acc.1)).

Definition run (tr : list input) : world * list packet :=
  foldl exec (boot, []) tr.

Definition world_after (tr : list input) : world := (run tr).1.

(** ** Vocabulary of the specification *)

(** The session of a connection as the specification tells it: [Unjoined]
    after the connect, [Joined] once a ["join"] was received, [Closed] after
    the disconnect. [None] is a socket that never connected. *)
Inductive session := Unjoined | Joined | Closed.

Definition session_step (socket : SocketId) (s : option session) (i : input)
  : option session :=
  match i with
  | Connection c => if decide (c = socket) then Some Unjoined else s
  | Disconnect c =>
      if decide (c = socket) then (λ _, Closed) <$> s else s
  | Recv c _ (Join _) =>
      if decide (c = socket) then
        match s with
        | Some Unjoined | Some Joined => Some Joined
        | _ => s
        end
      else s
  | Recv _ _ _ => s
  end.

Definition session_after (tr : list input) (socket : SocketId) : option session :=
  foldl (session_step socket) None tr.

(** The events that the specification ties to the [Joined] session. *)
Definition is_join (ev : event) : bool :=
  match ev with Join _ => true | _ => false end.

(** An input that was not processed: no state change, nothing written. *)
Definition ignored (i : input) (w : world) : Prop :=
  after (step i w) = w ∧ written (step i w) = [].

(** The number of documents whose [read] went from [false] to [true] between
    two versions of the collection. *)
Definition flipped (c c' : list Message) : nat :=
  length (List.filter (λ mm, negb (msg_read mm.1) && msg_read mm.2) (zip c c')).

(** The packets of a run that were written to one socket. *)
Definition received (socket : SocketId) (out : list packet) : list packet :=
  List.filter (λ pk, bool_decide (pk_socket pk = socket)) out.

(** ** A sample conversation *)

(** Two sockets connect; the first joins as alice, the second as bob. *)
Definition chat : list input :=
  [ Connection "s1"; Connection "s2";
    Recv "s1" (mkEnv 1 true) (Join "alice");
    Recv "s2" (mkEnv 2 true) (Join "bob") ].

Definition hi : message_payload := mkPayload "alice" "bob" "hi" [].

(** Nothing keeps a socket from sending a message from alice to alice. *)
Definition note_to_self : list input :=
  [ Connection "s1";
    Recv "s1" (mkEnv 1 true) (MessageEv (mkPayload "alice" "alice" "memo" [])) ].

(** The sample conversation, then alice's socket sends [hi] to bob. *)
Definition greeted : list input :=
  chat ++ [ Recv "s1" (mkEnv 5 true) (MessageEv hi) ].

(** alice's socket joins a second time, now as bob. *)
Definition rejoin : list input :=
  chat ++ [ Recv "s1" (mkEnv 3 true) (Join "bob") ].

(** ** The user directory and [GET /match/:userId]

    The [User] model of lines 36-41 and the route of lines 59-67. The
    documents hold every field of the schema, and the [userId] of the path is
    one that casts to an [_id]. *)
Record User := mkUser {
  usr_id : N;
  usr_username : string;
  usr_interests : list string;
  usr_location : string;
  usr_video : string;
}.

(** How the route handler ends: with [res.json(matches)], or with an
    exception that leaves it before any response is sent. *)
Inductive fault := TypeError | DbError.

Inductive reply :=
  | Json (body : list User)
  | Threw (f : fault).

(** [User.findById(id)]: the document with this [_id], or [null]. *)
Definition User_findById (id : N) (users : list User) : option User :=
  List.find (λ u, bool_decide (usr_id u = id)) users.

(** The filter of lines 61-65:
    [{ _id: { $ne: currentUser._id }, interests: { $in: currentUser.interests },
       location: currentUser.location }].
    On an array field [$in] asks for one element of the field in the list. *)
Definition match_filter (currentUser u : User) : bool :=
  bool_decide (usr_id u ≠ usr_id currentUser)
  && existsb (λ i, bool_decide (i ∈ usr_interests currentUser)) (usr_interests u)
  && bool_decide (usr_location u = usr_location currentUser).

(** [User.find(filter)]: the documents that pass, in the order of the
    collection. *)
Definition User_find (currentUser : User) (users : list User) : list User :=
  filter (λ u, match_filter currentUser u) users.

(** Lines 59-67. When [findById] gives [null], reading [currentUser._id] for
    the filter throws. *)
Definition get_match (e : env) (users : list User) (userId : N) : reply :=
  if db_up e then
    match User_findById userId users with
    | None => Threw TypeError
    | Some currentUser => Json (User_find currentUser users)
    end
  else Threw DbError.

(** A small directory: ann and ben share hiking in Oslo, cat hikes in Rome,
    dan lives in Oslo and has no interests. *)
Definition directory : list User :=
  [ mkUser 1 "ann" ["hiking"; "chess"] "Oslo" "";
    mkUser 2 "ben" ["hiking"] "Oslo" "";
    mkUser 3 "cat" ["hiking"] "Rome" "";
    mkUser 4 "dan" [] "Oslo" "" ].

(** ** The client, [frontend/src/App.js]

    What the component sends: ["join"] once mounted (line 18), ["typing"] on
    every key (line 33) and ["message"] with the text of the input (line 13). *)
Definition App_mount : event := Join "user1".
Definition App_keyDown : event := Typing "user2".
Definition App_sendMessage (text : string) : event :=
  MessageEv (mkPayload "user1" "user2" text []).

Definition App_emits (ev : event) : Prop :=
  ev = App_mount ∨ ev = App_keyDown ∨ ∃ text, ev = App_sendMessage text.

(** A run in which every client is this component, and no socket id happens
    to be the name ["user2"]. *)
Definition App_run (tr : list input) : Prop :=
  Forall (λ i, match i with
               | Connection s | Disconnect s => s ≠ "user2"
               | Recv s _ ev => s ≠ "user2" ∧ App_emits ev
               end) tr.

(** What holds of the server while all its clients are [App]s: nobody is in
    the room the component writes to, and the collection holds unread
    messages from ["user1"] to ["user2"] only. *)
Definition quiet (w : world) : Prop :=
  (∀ c, c ∉ members w "user2")
  ∧ Forall (λ m, msg_from m = "user1" ∧ msg_to m = "user2" ∧ msg_read m = false)
           (collection w).

(** ** Invariants of a run *)

(** Only connected sockets are in rooms. *)
Definition rooms_connected (w : world) : Prop :=
  ∀ room c, c ∈ members w room → c ∈ sockets w.

(** A document is the same as an earlier version of it, except that it may
    have been read in between. *)
Definition later_version (m m' : Message) : Prop :=
  msg_id m' = msg_id m ∧ msg_from m' = msg_from m ∧ msg_to m' = msg_to m
  ∧ msg_text m' = msg_text m ∧ msg_timestamp m' = msg_timestamp m
  ∧ (msg_read m = true → msg_read m' = true).

(** The room an input makes the server write to, when it writes at all. *)
Definition target (i : input) : option Room :=
  match i with
  | Recv _ _ (Typing to) => Some to
  | Recv _ _ (MessageEv p) => Some (p_to p)
  | Recv _ _ (Read from _) => Some from
  | _ => None
  end.

(** * Properties *)

(** ** The adapter *)

Section Adapter.
Implicit Types (w : world) (room : Room) (c socket : SocketId).

Lemma members_lookup w room c :
  c ∈ members w room ↔ ∃ s, rooms w !! room = Some s ∧ c ∈ s.
Proof.
  unfold members. destruct (rooms w !! room) as [s|]; simpl.
  - split; [eauto | by intros (s' & [= <-] & ?)].
  - split; [set_solver | by intros (? & ? & ?)].
Qed.

Lemma members_socket_join w socket room room' c :
  c ∈ members (after (socket_join socket room w)) room'
  ↔ (c = socket ∧ room' = room) ∨ c ∈ members w room'.
Proof.
  unfold after, socket_join; simpl. unfold members at 1; simpl.
  destruct (decide (room = room')) as [<-|Hne].
  - rewrite lookup_insert_eq; simpl. set_solver.
  - rewrite lookup_insert_ne by done. fold (members w room'). naive_solver.
Qed.

Lemma elem_of_io_to_emit w room ev args pk :
  pk ∈ written (io_to_emit room ev args w)
  ↔ pk_socket pk ∈ members w room ∧ pk_event pk = ev ∧ pk_args pk = args.
Proof.
  unfold written, io_to_emit; simpl. rewrite list_elem_of_fmap. split.
  - intros (c & -> & Hc). by apply elem_of_elements in Hc.
  - intros (Hc & <- & <-). exists (pk_socket pk). split; [by destruct pk|].
    by apply elem_of_elements.
Qed.

Lemma io_to_emit_NoDup w room ev args :
  NoDup (written (io_to_emit room ev args w)).
Proof.
  unfold written, io_to_emit; simpl. apply NoDup_fmap_2.
  - by intros ?? [= ->].
  - apply NoDup_elements.
Qed.
End Adapter.

(** ** Delivery *)

(** C8: a delivery to user [U] writes the event, with its payload, to every
    connection registered for [U] (so to both of [{c1, c2}]) and to nobody
    else, changes no state and always succeeds; when [U] has no connection it
    writes nothing. *)
Theorem deliver_reaches_every_connection (w : world) (U : Room) (ev : string)
    (args : list arg) :
  outcome (io_to_emit U ev args w) = Fulfilled tt
  ∧ after (io_to_emit U ev args w) = w
  ∧ (∀ c, c ∈ members w U → mkPacket c ev args ∈ written (io_to_emit U ev args w))
  ∧ (∀ c1 c2, members w U = {[c1; c2]} →
       mkPacket c1 ev args ∈ written (io_to_emit U ev args w)
       ∧ mkPacket c2 ev args ∈ written (io_to_emit U ev args w))
  ∧ (∀ pk, pk ∈ written (io_to_emit U ev args w) → pk_socket pk ∈ members w U)
  ∧ (members w U = ∅ → written (io_to_emit U ev args w) = []).
Proof.
  assert (Hall : ∀ c, c ∈ members w U →
            mkPacket c ev args ∈ written (io_to_emit U ev args w)).
  { intros c Hc. by apply elem_of_io_to_emit. }
  split; [done|]. split; [done|]. split; [done|]. split; [|split].
  - intros c1 c2 Hpair. split; apply Hall; rewrite Hpair.
    + apply elem_of_union_l, elem_of_singleton; reflexivity.
    + apply elem_of_union_r, elem_of_singleton; reflexivity.
  - intros pk Hpk. by apply elem_of_io_to_emit in Hpk as (? & _).
  - intros Hempty. unfold written, io_to_emit; simpl.
    by rewrite Hempty, elements_empty.
Qed.

(** ** The store *)

Section Store.
Implicit Types (w : world) (e : env) (m : Message) (c : list Message).

(** The document that lines 77-78 build from [(from, to, text)]. *)
Lemma save_up e from to text w :
  db_up e = true →
  save e from to text w =
    (Fulfilled (mkMessage (oid w) from to text (now e) false),
     {| sockets := sockets w; rooms := rooms w;
        collection := collection w ++ [mkMessage (oid w) from to text (now e) false];
        oid := N.succ (oid w) |},
     []).
Proof.
  intros Hup. unfold save, mbind, Async_bind, new_Date, new_Message, Message_save,
    mret, Async_ret; simpl. by rewrite Hup.
Qed.

Lemma save_down e from to text w :
  db_up e = false →
  save e from to text w =
    (Rejected StorageError,
     {| sockets := sockets w; rooms := rooms w;
        collection := collection w; oid := N.succ (oid w) |},
     []).
Proof.
  intros Hdown. unfold save, mbind, Async_bind, new_Date, new_Message, Message_save,
    mret, Async_ret; simpl. by rewrite Hdown.
Qed.

Lemma on_message_up e p w :
  db_up e = true →
  on_message e p w =
    (Fulfilled tt,
     after (save e (p_from p) (p_to p) (p_text p) w),
     (λ s, mkPacket s "message"
             [ADoc (mkMessage (oid w) (p_from p) (p_to p) (p_text p) (now e) false)])
       <$> elements (members w (p_to p))).
Proof.
  intros Hup. unfold on_message, mbind, Async_bind.
  rewrite (save_up _ _ _ _ _ Hup). reflexivity.
Qed.

Lemma on_message_down e p w :
  db_up e = false →
  on_message e p w =
    (Rejected StorageError, after (save e (p_from p) (p_to p) (p_text p) w), []).
Proof.
  intros Hdown. unfold on_message, mbind, Async_bind.
  rewrite (save_down _ _ _ _ _ Hdown). reflexivity.
Qed.

Lemma on_read_up e from to w :
  db_up e = true →
  on_read e from to w =
    (Fulfilled tt,
     {| sockets := sockets w; rooms := rooms w;
        collection := (updateMany from to (collection w)).1; oid := oid w |},
     (λ s, mkPacket s "read-receipt" [AObj [("from", from); ("to", to)]])
       <$> elements (members w from)).
Proof.
  intros Hup. unfold on_read, mbind, Async_bind, Message_updateMany.
  rewrite Hup. reflexivity.
Qed.

Lemma on_read_down e from to w :
  db_up e = false → on_read e from to w = (Rejected StorageError, w, []).
Proof.
  intros Hdown. unfold on_read, mbind, Async_bind, Message_updateMany.
  by rewrite Hdown.
Qed.
End Store.

(** ** Dispatch *)

Lemma step_connected (w : world) (socket : SocketId) (e : env) (ev : event) :
  socket ∈ sockets w → step (Recv socket e ev) w = listeners socket e ev w.
Proof. intros Hin. simpl. by rewrite decide_True. Qed.

Lemma step_not_connected (w : world) (socket : SocketId) (e : env) (ev : event) :
  socket ∉ sockets w → step (Recv socket e ev) w = (Fulfilled tt, w, []).
Proof. intros Hout. simpl. by rewrite decide_False. Qed.

Lemma received_nil (c : SocketId) (out : list packet) :
  (∀ pk, pk ∈ out → pk_socket pk ≠ c) → received c out = [].
Proof.
  intros Hnone. unfold received.
  destruct (List.filter _ out) as [|pk rest] eqn:Hf; [done|].
  assert (Hin : In pk (List.filter (λ pk, bool_decide (pk_socket pk = c)) out))
    by (rewrite Hf; left; reflexivity).
  apply filter_In in Hin as [Hin Hc].
  apply bool_decide_eq_true in Hc. apply list_elem_of_In in Hin.
  by destruct (Hnone pk Hin).
Qed.

(** ** Typing *)

(** C5, as the code has it: a ["typing"] event from a connected socket writes
    a ["typing"] packet without any payload to every connection of [to] and
    to nobody else; the state, and with it the collection, is unchanged. *)
Theorem typing_emits_bare_event (w : world) (socket : SocketId) (e : env)
    (to : string) :
  socket ∈ sockets w →
  outcome (step (Recv socket e (Typing to)) w) = Fulfilled tt
  ∧ after (step (Recv socket e (Typing to)) w) = w
  ∧ written (step (Recv socket e (Typing to)) w)
    = (λ c, mkPacket c "typing" []) <$> elements (members w to)
  ∧ (∀ c, c ∈ members w to
          ↔ mkPacket c "typing" [] ∈ written (step (Recv socket e (Typing to)) w)).
Proof.
  intros Hin. rewrite step_connected by done.
  change (listeners socket e (Typing to) w) with (io_to_emit to "typing" [] w).
  split; [done|]. split; [done|]. split; [done|].
  intros c. rewrite elem_of_io_to_emit. simpl. naive_solver.
Qed.

(** alice's socket signals typing to bob in the sample conversation. *)
Lemma typing_emits_bare_event_witness :
  "s1" ∈ sockets (world_after chat)
  ∧ written (step (Recv "s1" (mkEnv 3 true) (Typing "bob")) (world_after chat))
    = (λ c, mkPacket c "typing" []) <$> elements (members (world_after chat) "bob").
Proof.
  assert (Hin : "s1" ∈ sockets (world_after chat)) by (vm_compute; reflexivity).
  split; [exact Hin|].
  exact (proj1 (proj2 (proj2
    (typing_emits_bare_event (world_after chat) "s1" (mkEnv 3 true) "bob" Hin)))).
Defined.

(** C5, as stated, fails: alice's socket signals typing to bob, and what bob's
    socket gets is the bare event, not one carrying [{from: "alice"}]. *)
Lemma typing_has_no_from_payload :
  "s1" ∈ members (world_after chat) "alice"
  ∧ "s2" ∈ members (world_after chat) "bob"
  ∧ written (step (Recv "s1" (mkEnv 3 true) (Typing "bob")) (world_after chat))
    = [mkPacket "s2" "typing" []]
  ∧ mkPacket "s2" "typing" [AObj [("from", "alice")]]
    ∉ written (step (Recv "s1" (mkEnv 3 true) (Typing "bob")) (world_after chat)).
Proof.
  assert (Hout : written (step (Recv "s1" (mkEnv 3 true) (Typing "bob")) (world_after chat))
                 = [mkPacket "s2" "typing" []]) by (vm_compute; reflexivity).
  split; [vm_compute; reflexivity|]. split; [vm_compute; reflexivity|].
  split; [exact Hout|]. rewrite Hout. by intros [=]%list_elem_of_singleton.
Qed.

(** ** Read receipts *)

(** C7, as the code has it: when the update of a ["read"] event succeeds, the
    handler writes ["read-receipt"] with payload [{from, to}] to exactly the
    connections in the room of [from], whichever socket sent the event. Any
    other connection, be it the one that sent the event or one of [to], gets
    nothing; it gets the receipt when it is itself in the room of [from]. *)
Theorem read_receipt_goes_to_from (w : world) (socket : SocketId) (e : env)
    (from to : string) :
  socket ∈ sockets w →
  db_up e = true →
  outcome (step (Recv socket e (Read from to)) w) = Fulfilled tt
  ∧ collection (after (step (Recv socket e (Read from to)) w))
    = (updateMany from to (collection w)).1
  ∧ (∀ pk, pk ∈ written (step (Recv socket e (Read from to)) w)
           ↔ pk_socket pk ∈ members w from
             ∧ pk_event pk = "read-receipt"
             ∧ pk_args pk = [AObj [("from", from); ("to", to)]])
  ∧ (∀ c, c ∈ members w from
          ↔ mkPacket c "read-receipt" [AObj [("from", from); ("to", to)]]
            ∈ written (step (Recv socket e (Read from to)) w))
  ∧ (∀ c, c ∉ members w from →
          received c (written (step (Recv socket e (Read from to)) w)) = []).
Proof.
  intros Hin Hup. rewrite step_connected by done. simpl.
  rewrite on_read_up by done.
  assert (Hpk : ∀ pk,
    pk ∈ written (Fulfilled tt,
                  {| sockets := sockets w; rooms := rooms w;
                     collection := (updateMany from to (collection w)).1;
                     oid := oid w |},
                  (λ s, mkPacket s "read-receipt" [AObj [("from", from); ("to", to)]])
                    <$> elements (members w from))
    ↔ pk_socket pk ∈ members w from ∧ pk_event pk = "read-receipt"
      ∧ pk_args pk = [AObj [("from", from); ("to", to)]]).
  { intros pk. apply (elem_of_io_to_emit w from "read-receipt"). }
  split; [done|]. split; [done|]. split; [exact Hpk|]. split.
  - intros c. rewrite Hpk. simpl. naive_solver.
  - intros c Hnot. apply received_nil. intros pk Hw <-.
    apply Hpk in Hw as (Hm & _). by apply Hnot.
Qed.

(** bob's socket reports alice's messages read in the sample conversation. *)
Lemma read_receipt_goes_to_from_witness :
  "s2" ∈ sockets (world_after chat)
  ∧ db_up (mkEnv 4 true) = true
  ∧ ∀ pk, pk ∈ written (step (Recv "s2" (mkEnv 4 true) (Read "alice" "bob"))
                          (world_after chat))
          ↔ pk_socket pk ∈ members (world_after chat) "alice"
            ∧ pk_event pk = "read-receipt"
            ∧ pk_args pk = [AObj [("from", "alice"); ("to", "bob")]].
Proof.
  assert (Hin : "s2" ∈ sockets (world_after chat)) by (vm_compute; reflexivity).
  split; [exact Hin|]. split; [reflexivity|].
  exact (proj1 (proj2 (proj2
    (read_receipt_goes_to_from (world_after chat) "s2" (mkEnv 4 true)
       "alice" "bob" Hin eq_refl)))).
Defined.

(** C7, as stated, fails twice. bob's socket, which joined as bob, reports
    alice's message read: the message is marked, the receipt goes to alice's
    socket, and the socket that sent the event gets nothing. And when alice's
    socket sends the event with [from] and [to] both alice, a connection of
    [to] does get the receipt. *)
Lemma read_receipt_misses_the_reader :
  "s2" ∈ members (world_after greeted) "bob"
  ∧ collection (world_after greeted) = [mkMessage 0 "alice" "bob" "hi" 5 false]
  ∧ outcome (step (Recv "s2" (mkEnv 6 true) (Read "alice" "bob")) (world_after greeted))
    = Fulfilled tt
  ∧ collection (after (step (Recv "s2" (mkEnv 6 true) (Read "alice" "bob"))
                         (world_after greeted)))
    = [mkMessage 0 "alice" "bob" "hi" 5 true]
  ∧ written (step (Recv "s2" (mkEnv 6 true) (Read "alice" "bob")) (world_after greeted))
    = [mkPacket "s1" "read-receipt" [AObj [("from", "alice"); ("to", "bob")]]]
  ∧ received "s2"
      (written (step (Recv "s2" (mkEnv 6 true) (Read "alice" "bob")) (world_after greeted)))
    = []
  ∧ "s1" ∈ members (world_after greeted) "alice"
  ∧ received "s1"
      (written (step (Recv "s1" (mkEnv 7 true) (Read "alice" "alice")) (world_after greeted)))
    = [mkPacket "s1" "read-receipt" [AObj [("from", "alice"); ("to", "alice")]]].
Proof. repeat split; vm_compute; reflexivity. Qed.

(** ** Messages *)

(** C9: for a valid [(sender, recipient, text)] and a database that answers,
    [save] returns a document with [read = false] whose timestamp is the clock
    of the server at the call, hence not before it. The document carries the
    three fields given and is the one appended to the collection; whatever
    else the client put in its payload has no part in it. *)
Theorem save_stamps_unread_message (e : env) (w : world)
    (sender recipient text : string) :
  sender ≠ recipient → sender ≠ "" → recipient ≠ "" →
  db_up e = true →
  ∃ m, outcome (save e sender recipient text w) = Fulfilled m
     ∧ msg_read m = false
     ∧ msg_timestamp m = now e
     ∧ (now e ≤ msg_timestamp m)%Z
     ∧ msg_from m = sender ∧ msg_to m = recipient ∧ msg_text m = text
     ∧ collection (after (save e sender recipient text w)) = collection w ++ [m]
     ∧ ∀ rest, collection (after (on_message e (mkPayload sender recipient text rest) w))
               = collection w ++ [m].
Proof.
  intros _ _ _ Hup.
  exists (mkMessage (oid w) sender recipient text (now e) false).
  rewrite save_up by done. simpl.
  repeat (split; [done || reflexivity|]).
  intros rest. rewrite on_message_up by done. simpl.
  by rewrite save_up.
Qed.

(** A message from alice to bob saved at time 5. *)
Lemma save_stamps_unread_message_witness :
  "alice" ≠ "bob" ∧ "alice" ≠ "" ∧ "bob" ≠ ""
  ∧ db_up (mkEnv 5 true) = true
  ∧ ∃ m, outcome (save (mkEnv 5 true) "alice" "bob" "hi" (world_after chat)) = Fulfilled m
       ∧ msg_read m = false
       ∧ msg_timestamp m = 5%Z.
Proof.
  assert (H1 : "alice" ≠ "bob") by discriminate.
  assert (H2 : "alice" ≠ "") by discriminate.
  assert (H3 : "bob" ≠ "") by discriminate.
  split; [exact H1|]. split; [exact H2|]. split; [exact H3|]. split; [reflexivity|].
  destruct (save_stamps_unread_message (mkEnv 5 true) (world_after chat)
              "alice" "bob" "hi" H1 H2 H3 eq_refl)
    as (m & Hm & Hread & Hts & _).
  exists m. split; [exact Hm|]. split; [exact Hread|]. exact Hts.
Defined.

(** C1, as the code has it: a [save] whose sender equals the recipient, or
    whose sender, recipient or text is empty, is not refused. When the
    database takes the write, it succeeds and appends exactly one document
    with these fields; when the write fails, it does not succeed and nothing
    is appended. *)
Theorem save_validates_nothing (e : env) (w : world)
    (sender recipient text : string) :
  sender = recipient ∨ sender = "" ∨ recipient = "" ∨ text = "" →
  if db_up e then
    ∃ m, outcome (save e sender recipient text w) = Fulfilled m
       ∧ msg_from m = sender ∧ msg_to m = recipient ∧ msg_text m = text
       ∧ collection (after (save e sender recipient text w)) = collection w ++ [m]
  else
    (∀ m, outcome (save e sender recipient text w) ≠ Fulfilled m)
    ∧ collection (after (save e sender recipient text w)) = collection w.
Proof.
  intros _. destruct (db_up e) eqn:Hdb.
  - rewrite save_up by done.
    by exists (mkMessage (oid w) sender recipient text (now e) false).
  - rewrite save_down by done. by split.
Qed.

(** alice writes to herself, with an empty text. *)
Lemma save_validates_nothing_witness :
  ("alice" = "alice" ∨ "alice" = "" ∨ "alice" = "" ∨ "" = "")
  ∧ ∃ m, outcome (save (mkEnv 5 true) "alice" "alice" "" (world_after chat)) = Fulfilled m
       ∧ msg_from m = "alice" ∧ msg_to m = "alice" ∧ msg_text m = ""
       ∧ collection (after (save (mkEnv 5 true) "alice" "alice" "" (world_after chat)))
         = collection (world_after chat) ++ [m].
Proof.
  split; [left; reflexivity|].
  exact (save_validates_nothing (mkEnv 5 true) (world_after chat) "alice" "alice" ""
           (or_introl eq_refl)).
Defined.

(** C1, as stated, fails: a message that alice sends to herself is saved. *)
Lemma self_message_is_saved :
  outcome (step (Recv "s1" (mkEnv 5 true) (MessageEv (mkPayload "alice" "alice" "hi" [])))
             (world_after chat)) = Fulfilled tt
  ∧ outcome (save (mkEnv 5 true) "alice" "alice" "hi" (world_after chat))
    ≠ Rejected ValidationError
  ∧ collection (world_after chat) = []
  ∧ collection (after (save (mkEnv 5 true) "alice" "alice" "hi" (world_after chat)))
    = [mkMessage 0 "alice" "alice" "hi" 5 false].
Proof.
  split; [vm_compute; reflexivity|]. split; [vm_compute; discriminate|].
  split; vm_compute; reflexivity.
Qed.

(** C4, as the code has it: when the save of a ["message"] event fails, the
    handler stops there. Nothing is appended, the rooms are as before, and no
    packet is written to any connection, the sender's included; the error is
    not caught and leaves the handler as the rejection of its promise. *)
Theorem failed_save_rejects_and_writes_nothing (w : world) (socket : SocketId)
    (e : env) (p : message_payload) :
  socket ∈ sockets w →
  db_up e = false →
  outcome (step (Recv socket e (MessageEv p)) w) = Rejected StorageError
  ∧ collection (after (step (Recv socket e (MessageEv p)) w)) = collection w
  ∧ rooms (after (step (Recv socket e (MessageEv p)) w)) = rooms w
  ∧ sockets (after (step (Recv socket e (MessageEv p)) w)) = sockets w
  ∧ written (step (Recv socket e (MessageEv p)) w) = [].
Proof.
  intros Hin Hdown. rewrite step_connected by done.
  change (listeners socket e (MessageEv p) w) with (on_message e p w).
  rewrite on_message_down by done. rewrite save_down by done. done.
Qed.

(** alice's socket sends a message while the database is down. *)
Lemma failed_save_rejects_and_writes_nothing_witness :
  "s1" ∈ sockets (world_after chat)
  ∧ db_up (mkEnv 5 false) = false
  ∧ outcome (step (Recv "s1" (mkEnv 5 false) (MessageEv hi)) (world_after chat))
    = Rejected StorageError
  ∧ written (step (Recv "s1" (mkEnv 5 false) (MessageEv hi)) (world_after chat)) = [].
Proof.
  assert (Hin : "s1" ∈ sockets (world_after chat)) by (vm_compute; reflexivity).
  split; [exact Hin|]. split; [reflexivity|].
  destruct (failed_save_rejects_and_writes_nothing (world_after chat) "s1"
              (mkEnv 5 false) hi Hin eq_refl)
    as (Hrej & _ & _ & _ & Hout).
  split; [exact Hrej | exact Hout].
Defined.

(** C4, as stated, fails: alice's socket sends a message while the database
    is down, and nothing at all is written to her socket. *)
Lemma failed_save_not_surfaced_to_sender :
  "s1" ∈ members (world_after chat) "alice"
  ∧ outcome (step (Recv "s1" (mkEnv 5 false) (MessageEv hi)) (world_after chat))
    = Rejected StorageError
  ∧ received "s1"
      (written (step (Recv "s1" (mkEnv 5 false) (MessageEv hi)) (world_after chat)))
    = [].
Proof. repeat split; vm_compute; reflexivity. Qed.

(** ** Who may send *)

(** C10: a ["typing"], ["message"] or ["read"] event has the same outcome, the
    same effect on the state and the same packets whichever connected socket
    it comes from, whatever that socket has joined. *)
Theorem handlers_ignore_the_sender (w : world) (s1 s2 : SocketId) (e : env)
    (ev : event) :
  s1 ∈ sockets w → s2 ∈ sockets w →
  is_join ev = false →
  step (Recv s1 e ev) w = step (Recv s2 e ev) w.
Proof.
  intros H1 H2 Hev. rewrite !step_connected by done.
  destruct ev; [discriminate Hev | reflexivity ..].
Qed.

(** A socket that never joined and one that joined as bob send the same
    ["read"] event. *)
Lemma handlers_ignore_the_sender_witness :
  "s1" ∈ sockets (world_after [Connection "s1"; Connection "s2";
                               Recv "s2" (mkEnv 1 true) (Join "bob")])
  ∧ "s2" ∈ sockets (world_after [Connection "s1"; Connection "s2";
                                 Recv "s2" (mkEnv 1 true) (Join "bob")])
  ∧ is_join (Read "alice" "bob") = false
  ∧ step (Recv "s1" (mkEnv 2 true) (Read "alice" "bob"))
         (world_after [Connection "s1"; Connection "s2";
                       Recv "s2" (mkEnv 1 true) (Join "bob")])
    = step (Recv "s2" (mkEnv 2 true) (Read "alice" "bob"))
           (world_after [Connection "s1"; Connection "s2";
                         Recv "s2" (mkEnv 1 true) (Join "bob")]).
Proof.
  assert (H1 : "s1" ∈ sockets (world_after [Connection "s1"; Connection "s2";
                 Recv "s2" (mkEnv 1 true) (Join "bob")])) by (vm_compute; reflexivity).
  assert (H2 : "s2" ∈ sockets (world_after [Connection "s1"; Connection "s2";
                 Recv "s2" (mkEnv 1 true) (Join "bob")])) by (vm_compute; reflexivity).
  split; [exact H1|]. split; [exact H2|]. split; [reflexivity|].
  exact (handlers_ignore_the_sender _ "s1" "s2" (mkEnv 2 true) (Read "alice" "bob")
           H1 H2 eq_refl).
Defined.

(** ** Marking as read *)

Section MarkRead.
Implicit Types (A B : string) (m : Message) (c : list Message).

Lemma matches_spec A B m :
  matches A B m = true ↔ msg_from m = A ∧ msg_to m = B ∧ msg_read m = false.
Proof.
  unfold matches. rewrite !andb_true_iff, !bool_decide_eq_true, negb_true_iff.
  naive_solver.
Qed.

Lemma matches_set_read A B m : matches A B (set_read m) = false.
Proof. unfold matches; simpl. by rewrite andb_false_r. Qed.

Lemma updateMany_lookup A B c i :
  (updateMany A B c).1 !! i
  = (λ m, if matches A B m then set_read m else m) <$> c !! i.
Proof. unfold updateMany; simpl. apply list_lookup_fmap. Qed.

Lemma updateMany_length A B c : length (updateMany A B c).1 = length c.
Proof. unfold updateMany; simpl. apply length_fmap. Qed.

(** [modifiedCount] is the number of documents whose flag was flipped. *)
Lemma updateMany_count_flipped A B c :
  (updateMany A B c).2 = flipped c (updateMany A B c).1.
Proof.
  unfold updateMany, flipped; simpl.
  induction c as [|m c IH]; [reflexivity|]. simpl.
  destruct (matches A B m) eqn:Hm; simpl.
  - apply matches_spec in Hm as (_ & _ & ->). simpl. by rewrite IH.
  - rewrite andb_negb_l. exact IH.
Qed.

(** A second [updateMany] with the same filter matches nothing. *)
Lemma updateMany_again A B c :
  updateMany A B (updateMany A B c).1 = ((updateMany A B c).1, 0).
Proof.
  unfold updateMany; simpl. f_equal.
  - rewrite <- list_fmap_compose. apply list_fmap_ext. intros _ m _. simpl.
    destruct (matches A B m) eqn:Hm; [by rewrite matches_set_read | by rewrite Hm].
  - induction c as [|m c IH]; [reflexivity|]. rewrite fmap_cons. simpl.
    destruct (matches A B m) eqn:Hm; [by rewrite matches_set_read | by rewrite Hm].
Qed.

(** C6, as the code has it: after a successful [markRead(A, B)] every unread
    message from [A] to [B] is read and otherwise as it was, every message
    that is not an unread one from [A] to [B] is unchanged (so the messages
    from [B] to [A] are, when [A] and [B] differ), the count returned is the
    number of flags flipped, and a second [markRead(A, B)] returns 0 and
    changes nothing. *)
Theorem markRead_flips_the_pair (e : env) (w : world) A B :
  db_up e = true →
  ∃ n, outcome (Message_updateMany e A B w) = Fulfilled n
     ∧ n = flipped (collection w) (collection (after (Message_updateMany e A B w)))
     ∧ (∀ i m, collection w !! i = Some m →
               msg_from m = A → msg_to m = B → msg_read m = false →
               collection (after (Message_updateMany e A B w)) !! i = Some (set_read m))
     ∧ (∀ i m, collection w !! i = Some m →
               ¬ (msg_from m = A ∧ msg_to m = B ∧ msg_read m = false) →
               collection (after (Message_updateMany e A B w)) !! i = Some m)
     ∧ (A ≠ B → ∀ i m, collection w !! i = Some m →
               msg_from m = B → msg_to m = A →
               collection (after (Message_updateMany e A B w)) !! i = Some m)
     ∧ (∀ m, m ∈ collection (after (Message_updateMany e A B w)) →
             msg_from m = A → msg_to m = B → msg_read m = true)
     ∧ length (collection (after (Message_updateMany e A B w))) = length (collection w)
     ∧ Message_updateMany e A B (after (Message_updateMany e A B w))
       = (Fulfilled 0, after (Message_updateMany e A B w), []).
Proof.
  intros Hup. exists (updateMany A B (collection w)).2.
  unfold Message_updateMany. rewrite Hup. unfold outcome, after.
  cbn [fst snd collection].
  assert (Hkeep : ∀ i m, collection w !! i = Some m →
            ¬ (msg_from m = A ∧ msg_to m = B ∧ msg_read m = false) →
            (updateMany A B (collection w)).1 !! i = Some m).
  { intros i m Hi Hno. rewrite updateMany_lookup, Hi. simpl.
    destruct (matches A B m) eqn:Hm; [|done].
    by apply matches_spec in Hm. }
  split; [done|]. split; [apply updateMany_count_flipped|].
  split; [|split; [exact Hkeep|split; [|split; [|split]]]].
  - intros i m Hi HA HB Hr. rewrite updateMany_lookup, Hi. simpl.
    by rewrite (proj2 (matches_spec A B m)).
  - intros Hne i m Hi HB HA. apply Hkeep; [done|].
    intros (HA' & _ & _). congruence.
  - intros m Hin HA HB. unfold updateMany in Hin; simpl in Hin.
    apply list_elem_of_fmap in Hin as (m0 & -> & _).
    destruct (matches A B m0) eqn:Hm; [done|].
    destruct (msg_read m0) eqn:Hr; [done|].
    by rewrite (proj2 (matches_spec A B m0)) in Hm.
  - apply updateMany_length.
  - rewrite updateMany_again. reflexivity.
Qed.
End MarkRead.

(** alice's message to bob is marked read. *)
Lemma markRead_flips_the_pair_witness :
  db_up (mkEnv 9 true) = true
  ∧ ∃ n, outcome (Message_updateMany (mkEnv 9 true) "alice" "bob"
                    (after (step (Recv "s1" (mkEnv 5 true) (MessageEv hi))
                              (world_after chat))))
         = Fulfilled n
       ∧ n = flipped
               (collection (after (step (Recv "s1" (mkEnv 5 true) (MessageEv hi))
                                     (world_after chat))))
               (collection (after (Message_updateMany (mkEnv 9 true) "alice" "bob"
                  (after (step (Recv "s1" (mkEnv 5 true) (MessageEv hi))
                            (world_after chat)))))).
Proof.
  split; [reflexivity|].
  destruct (markRead_flips_the_pair (mkEnv 9 true)
              (after (step (Recv "s1" (mkEnv 5 true) (MessageEv hi)) (world_after chat)))
              "alice" "bob" eq_refl)
    as (n & Hn & Hflip & _).
  exists n. split; [exact Hn | exact Hflip].
Defined.

(** C6, as stated, fails at [A = B]: the store holds an unread message from
    alice to alice, which is a message from [B] to [A], and [markRead] changes
    it. *)
Lemma markRead_changes_note_to_self :
  collection (world_after note_to_self) = [mkMessage 0 "alice" "alice" "memo" 1 false]
  ∧ collection (after (Message_updateMany (mkEnv 2 true) "alice" "alice"
                         (world_after note_to_self)))
    = [mkMessage 0 "alice" "alice" "memo" 1 true]
  ∧ collection (after (Message_updateMany (mkEnv 2 true) "alice" "alice"
                         (world_after note_to_self))) !! 0
    ≠ collection (world_after note_to_self) !! 0.
Proof.
  split; [vm_compute; reflexivity|]. split; [vm_compute; reflexivity|].
  vm_compute. discriminate.
Qed.

(** ** Sessions and rooms over a run *)

Section Runs.
Implicit Types (w : world) (tr : list input) (i : input) (c socket : SocketId).

Lemma world_after_snoc tr i :
  world_after (tr ++ [i]) = after (step i (world_after tr)).
Proof. unfold world_after, run. by rewrite foldl_app. Qed.

Lemma session_after_snoc tr i socket :
  session_after (tr ++ [i]) socket = session_step socket (session_after tr socket) i.
Proof. unfold session_after. by rewrite foldl_app. Qed.

(** No listener connects or disconnects anything. *)
Lemma listeners_sockets socket e ev w :
  sockets (after (listeners socket e ev w)) = sockets w.
Proof.
  destruct ev as [userId | to | p | from to]; simpl; try reflexivity.
  - destruct (db_up e) eqn:Hdb.
    + rewrite on_message_up by done. unfold after; simpl. by rewrite save_up.
    + rewrite on_message_down by done. unfold after; simpl. by rewrite save_down.
  - destruct (db_up e) eqn:Hdb.
    + by rewrite on_read_up.
    + by rewrite on_read_down.
Qed.

Lemma step_sockets i w c :
  c ∈ sockets (after (step i w))
  ↔ match i with
    | Connection s => c = s ∨ c ∈ sockets w
    | Disconnect s => c ≠ s ∧ c ∈ sockets w
    | Recv _ _ _ => c ∈ sockets w
    end.
Proof.
  destruct i as [s | s | s e ev].
  - unfold after; simpl. rewrite elem_of_union, elem_of_singleton. done.
  - unfold after; simpl. rewrite elem_of_difference, elem_of_singleton. naive_solver.
  - simpl. destruct (decide (s ∈ sockets w)); [|done].
    by rewrite listeners_sockets.
Qed.

(** The sessions of the specification and the sockets of the adapter agree on
    who is connected. *)
Lemma connected_iff_session tr socket :
  socket ∈ sockets (world_after tr)
  ↔ session_after tr socket = Some Unjoined ∨ session_after tr socket = Some Joined.
Proof.
  induction tr as [|i tr IH] using rev_ind.
  - unfold world_after, session_after; simpl. split; [set_solver | by intros [|]].
  - rewrite world_after_snoc, session_after_snoc, step_sockets.
    destruct i as [s | s | s e ev]; simpl.
    + destruct (decide (s = socket)) as [->|Hne]; [naive_solver|].
      rewrite IH. naive_solver.
    + destruct (decide (s = socket)) as [->|Hne].
      * destruct (session_after tr socket); simpl; naive_solver.
      * rewrite IH. naive_solver.
    + rewrite IH. destruct ev; try done.
      destruct (decide (s = socket)) as [->|Hne]; [|done].
      destruct (session_after tr socket) as [[| |]|]; naive_solver.
Qed.

Lemma members_disconnect socket w room c :
  c ∈ members (after (disconnect socket w)) room ↔ c ≠ socket ∧ c ∈ members w room.
Proof.
  rewrite !members_lookup. unfold after, disconnect, leave_all; simpl.
  rewrite lookup_omap. destruct (rooms w !! room) as [s|]; simpl.
  - destruct (decide (s ∖ {[socket]} = ∅)) as [Hempty|Hne].
    + split; [by intros (? & ? & ?)|]. intros (Hc & s' & [= <-] & Hin).
      exfalso. assert (c ∈ s ∖ {[socket]}) as Hd by set_solver.
      rewrite Hempty in Hd. set_solver.
    + split.
      * intros (s' & [= <-] & Hin). split; [set_solver|]. exists s. set_solver.
      * intros (Hc & s' & [= <-] & Hin). eexists. split; [done|]. set_solver.
  - naive_solver.
Qed.
End Runs.

(** ** Sessions *)

(** C2, as the code has it: the listeners are registered at the connect and
    run for every event of a connected socket, in the [Unjoined] session just
    as in the [Joined] one; after the disconnect ([Closed]) no event is
    processed. *)
Theorem events_processed_while_connected (tr : list input) (socket : SocketId)
    (e : env) (ev : event) :
  (session_after tr socket = Some Unjoined ∨ session_after tr socket = Some Joined →
     step (Recv socket e ev) (world_after tr) = listeners socket e ev (world_after tr))
  ∧ (session_after tr socket = Some Closed →
     ignored (Recv socket e ev) (world_after tr)).
Proof.
  split.
  - intros Hs. apply step_connected. by apply connected_iff_session.
  - intros Hs. unfold ignored. rewrite step_not_connected; [done|].
    rewrite connected_iff_session, Hs. by intros [|].
Qed.

(** C2, as stated, fails: a socket that has connected and never joined sends
    a message, and the message is saved. *)
Lemma unjoined_message_is_processed :
  session_after [Connection "s1"] "s1" = Some Unjoined
  ∧ is_join (MessageEv hi) = false
  ∧ collection (world_after [Connection "s1"]) = []
  ∧ collection (after (step (Recv "s1" (mkEnv 1 true) (MessageEv hi))
                         (world_after [Connection "s1"])))
    = [mkMessage 0 "alice" "bob" "hi" 1 false]
  ∧ ¬ ignored (Recv "s1" (mkEnv 1 true) (MessageEv hi)) (world_after [Connection "s1"]).
Proof.
  split; [reflexivity|]. split; [reflexivity|].
  split; [vm_compute; reflexivity|]. split; [vm_compute; reflexivity|].
  intros [Hsame _]. apply (f_equal collection) in Hsame.
  vm_compute in Hsame. discriminate.
Qed.

(** ** Matching *)

Section Matching.
Implicit Types (e : env) (users body : list User) (u cu : User) (userId : N).

Lemma match_filter_spec cu u :
  match_filter cu u
  ↔ usr_id u ≠ usr_id cu
    ∧ (∃ i, i ∈ usr_interests u ∧ i ∈ usr_interests cu)
    ∧ usr_location u = usr_location cu.
Proof.
  unfold match_filter.
  rewrite !andb_True, !bool_decide_spec, Is_true_true, existsb_exists.
  split.
  - intros [[Hid (i & Hi & Hin)] Hloc]. apply bool_decide_eq_true in Hin.
    apply list_elem_of_In in Hi. eauto 6.
  - intros (Hid & (i & Hi & Hin) & Hloc). split; [split|]; [done| |done].
    exists i. split; [by apply list_elem_of_In | by apply bool_decide_eq_true].
Qed.

Lemma findById_Some userId users u :
  User_findById userId users = Some u → u ∈ users ∧ usr_id u = userId.
Proof.
  intros Hf. apply find_some in Hf as [Hin Hid].
  apply bool_decide_eq_true in Hid. by apply list_elem_of_In in Hin.
Qed.

(** With unique [_id]s, looking up the [_id] of a document gives it back. *)
Lemma findById_member users u :
  NoDup (usr_id <$> users) → u ∈ users → User_findById (usr_id u) users = Some u.
Proof.
  induction users as [|v users IH]; intros Hnd Hin; [by apply elem_of_nil in Hin|].
  rewrite fmap_cons in Hnd. apply NoDup_cons in Hnd as [Hv Hnd].
  unfold User_findById; simpl. case_bool_decide as Hid.
  - apply elem_of_cons in Hin as [->|Hin]; [done|].
    destruct Hv. rewrite Hid. apply list_elem_of_fmap. eauto.
  - apply elem_of_cons in Hin as [->|Hin]; [done|]. by apply IH.
Qed.

Lemma User_find_spec cu users u :
  u ∈ User_find cu users
  ↔ u ∈ users
    ∧ usr_id u ≠ usr_id cu
    ∧ (∃ i, i ∈ usr_interests u ∧ i ∈ usr_interests cu)
    ∧ usr_location u = usr_location cu.
Proof.
  unfold User_find. rewrite list_elem_of_filter, match_filter_spec. naive_solver.
Qed.

Lemma get_match_found e users userId cu :
  db_up e = true → User_findById userId users = Some cu →
  get_match e users userId = Json (User_find cu users).
Proof. intros Hup Hfind. unfold get_match. by rewrite Hup, Hfind. Qed.

Lemma get_match_Json e users userId body :
  get_match e users userId = Json body →
  ∃ cu, User_findById userId users = Some cu ∧ body = User_find cu users.
Proof.
  unfold get_match. destruct (db_up e); [|discriminate].
  destruct (User_findById userId users) as [cu|]; [|discriminate].
  intros [= <-]. eauto.
Qed.
End Matching.

(** [GET /match/:userId] for a user of the directory answers with exactly the
    other users that are at the same location and share an interest, in the
    order of the collection; the user who asks is never among them. *)
Theorem match_lists_the_compatible_others (e : env) (users : list User)
    (userId : N) (cu : User) :
  db_up e = true →
  User_findById userId users = Some cu →
  ∃ body, get_match e users userId = Json body
    ∧ (∀ u, u ∈ body
            ↔ u ∈ users
              ∧ usr_id u ≠ userId
              ∧ (∃ i, i ∈ usr_interests u ∧ i ∈ usr_interests cu)
              ∧ usr_location u = usr_location cu)
    ∧ sublist body users
    ∧ cu ∉ body.
Proof.
  intros Hup Hfind. exists (User_find cu users).
  rewrite (get_match_found _ _ _ _ Hup Hfind).
  apply findById_Some in Hfind as [Hcu <-].
  split; [done|]. split; [intros u; apply User_find_spec|]. split.
  - apply sublist_filter.
  - intros Hin. apply User_find_spec in Hin as (_ & Hne & _). by apply Hne.
Qed.

(** ann asks: ben is her only match. *)
Lemma match_lists_the_compatible_others_witness :
  db_up (mkEnv 0 true) = true
  ∧ User_findById 1 directory = Some (mkUser 1 "ann" ["hiking"; "chess"] "Oslo" "")
  ∧ ∃ body, get_match (mkEnv 0 true) directory 1 = Json body
          ∧ mkUser 1 "ann" ["hiking"; "chess"] "Oslo" "" ∉ body.
Proof.
  split; [reflexivity|]. split; [reflexivity|].
  destruct (match_lists_the_compatible_others (mkEnv 0 true) directory 1
              (mkUser 1 "ann" ["hiking"; "chess"] "Oslo" "") eq_refl eq_refl)
    as (body & Hbody & _ & _ & Hself).
  exists body. split; [exact Hbody | exact Hself].
Defined.

(** Matching is mutual: in a directory with unique [_id]s, whoever is in the
    answer to a user gets an answer with that user in it. *)
Theorem match_is_mutual (e : env) (users : list User) (userId : N)
    (body : list User) (u : User) :
  NoDup (usr_id <$> users) →
  get_match e users userId = Json body →
  u ∈ body →
  ∃ cu body', User_findById userId users = Some cu
    ∧ get_match e users (usr_id u) = Json body'
    ∧ cu ∈ body'.
Proof.
  intros Hnd Hget Hin.
  assert (Hup : db_up e = true).
  { unfold get_match in Hget. by destruct (db_up e). }
  apply get_match_Json in Hget as (cu & Hfind & ->).
  exists cu, (User_find u users). split; [done|].
  apply findById_Some in Hfind as [Hcu _].
  apply User_find_spec in Hin as (Hu & Hne & (i & Hi & Hi') & Hloc).
  split.
  - apply get_match_found; [done|]. by apply findById_member.
  - apply User_find_spec. split; [done|]. split; [congruence|]. split; [eauto|done].
Qed.

(** ben is in ann's answer, so ann is in ben's. *)
Lemma match_is_mutual_witness :
  NoDup (usr_id <$> directory)
  ∧ get_match (mkEnv 0 true) directory 1 = Json [mkUser 2 "ben" ["hiking"] "Oslo" ""]
  ∧ mkUser 2 "ben" ["hiking"] "Oslo" "" ∈ [mkUser 2 "ben" ["hiking"] "Oslo" ""]
  ∧ ∃ cu body', User_findById 1 directory = Some cu
      ∧ get_match (mkEnv 0 true) directory 2 = Json body'
      ∧ cu ∈ body'.
Proof.
  assert (Hnd : NoDup (usr_id <$> directory)).
  { apply (bool_decide_unpack _). vm_compute. exact I. }
  assert (Hin : mkUser 2 "ben" ["hiking"] "Oslo" "" ∈ [mkUser 2 "ben" ["hiking"] "Oslo" ""])
    by apply list_elem_of_here.
  split; [exact Hnd|]. split; [reflexivity|]. split; [exact Hin|].
  exact (match_is_mutual (mkEnv 0 true) directory 1 _ _ Hnd eq_refl Hin).
Defined.

(** A user without interests gets an empty answer, whoever else is at the
    same location, and is in nobody's answer. *)
Theorem match_needs_an_interest (e : env) (users : list User) (userId : N)
    (cu : User) :
  db_up e = true →
  User_findById userId users = Some cu →
  usr_interests cu = [] →
  get_match e users userId = Json []
  ∧ ∀ other body, get_match e users other = Json body → cu ∉ body.
Proof.
  intros Hup Hfind Hnone. split.
  - rewrite (get_match_found _ _ _ _ Hup Hfind). f_equal.
    apply elem_of_nil_inv. intros u Hu.
    apply User_find_spec in Hu as (_ & _ & (i & _ & Hi) & _).
    rewrite Hnone in Hi. by apply elem_of_nil in Hi.
  - intros other body Hget Hin.
    apply get_match_Json in Hget as (ou & _ & ->).
    apply User_find_spec in Hin as (_ & _ & (i & Hi & _) & _).
    rewrite Hnone in Hi. by apply elem_of_nil in Hi.
Qed.

(** dan lives in Oslo like ann and ben, and has no interests. *)
Lemma match_needs_an_interest_witness :
  db_up (mkEnv 0 true) = true
  ∧ User_findById 4 directory = Some (mkUser 4 "dan" [] "Oslo" "")
  ∧ usr_interests (mkUser 4 "dan" [] "Oslo" "") = []
  ∧ get_match (mkEnv 0 true) directory 4 = Json [].
Proof.
  split; [reflexivity|]. split; [reflexivity|]. split; [reflexivity|].
  exact (proj1 (match_needs_an_interest (mkEnv 0 true) directory 4
                  (mkUser 4 "dan" [] "Oslo" "") eq_refl eq_refl eq_refl)).
Defined.

(** ** What a step does to rooms, packets and documents *)

Section Steps.
Implicit Types (w : world) (tr : list input) (i : input) (c socket : SocketId).

Lemma run_snoc tr i : run (tr ++ [i]) = exec (run tr) i.
Proof. unfold run. by rewrite foldl_app. Qed.

Lemma listeners_rooms socket e ev w :
  is_join ev = false → rooms (after (listeners socket e ev w)) = rooms w.
Proof.
  destruct ev as [userId | to | p | from to]; simpl; try done; intros _.
  - destruct (db_up e) eqn:Hdb.
    + rewrite on_message_up by done. unfold after; simpl. by rewrite save_up.
    + rewrite on_message_down by done. unfold after; simpl. by rewrite save_down.
  - destruct (db_up e) eqn:Hdb.
    + by rewrite on_read_up.
    + by rewrite on_read_down.
Qed.

Lemma members_connect socket w room c :
  c ∈ members (after (connect socket w)) room
  ↔ (c = socket ∧ room = socket) ∨ c ∈ members w room.
Proof.
  unfold connect. rewrite members_socket_join. reflexivity.
Qed.

Lemma members_step i w room c :
  c ∈ members (after (step i w)) room
  ↔ match i with
    | Connection s => (c = s ∧ room = s) ∨ c ∈ members w room
    | Disconnect s => c ≠ s ∧ c ∈ members w room
    | Recv s _ (Join u) => (s ∈ sockets w ∧ c = s ∧ room = u) ∨ c ∈ members w room
    | Recv _ _ _ => c ∈ members w room
    end.
Proof.
  destruct i as [s | s | s e ev].
  - apply members_connect.
  - apply members_disconnect.
  - simpl. destruct (decide (s ∈ sockets w)) as [Hin|Hout].
    + destruct ev as [u | to | p | from to].
      * change (listeners s e (Join u) w) with (socket_join s u w).
        rewrite members_socket_join. naive_solver.
      * reflexivity.
      * unfold members. by rewrite listeners_rooms.
      * unfold members. by rewrite listeners_rooms.
    + destruct ev; naive_solver.
Qed.

(** Whatever a step writes goes to members of its target room. *)
Lemma written_step i w pk :
  pk ∈ written (step i w) →
  ∃ room, target i = Some room ∧ pk_socket pk ∈ members w room.
Proof.
  destruct i as [s | s | s e ev]; try (by intros []%elem_of_nil).
  simpl. destruct (decide (s ∈ sockets w)); [|by intros []%elem_of_nil].
  destruct ev as [u | to | p | from to]; simpl.
  - by intros []%elem_of_nil.
  - intros (Hm & _)%elem_of_io_to_emit. eauto.
  - destruct (db_up e) eqn:Hdb.
    + rewrite on_message_up by done.
      intros (Hm & _)%(elem_of_io_to_emit w (p_to p) "message"). eauto.
    + rewrite on_message_down by done. by intros []%elem_of_nil.
  - destruct (db_up e) eqn:Hdb.
    + rewrite on_read_up by done.
      intros (Hm & _)%(elem_of_io_to_emit w from "read-receipt"). eauto.
    + rewrite on_read_down by done. by intros []%elem_of_nil.
Qed.

Lemma rooms_connected_step i w :
  rooms_connected w → rooms_connected (after (step i w)).
Proof.
  intros Hinv room c. rewrite members_step, step_sockets.
  destruct i as [s | s | s e [u | to | p | from to]];
    try (by apply Hinv); specialize (Hinv room c); naive_solver.
Qed.

Lemma rooms_connected_run tr : rooms_connected (world_after tr).
Proof.
  induction tr as [|i tr IH] using rev_ind.
  - intros room c. unfold world_after, run, members; simpl.
    rewrite lookup_empty; simpl. set_solver.
  - rewrite world_after_snoc. by apply rooms_connected_step.
Qed.

(** The collection after a step: as before, or with the document of a
    ["message"] event at its end, or with the flags of a ["read"] event set. *)
Lemma collection_step i w :
  collection (after (step i w)) = collection w
  ∨ (∃ s e p, i = Recv s e (MessageEv p) ∧ s ∈ sockets w ∧ db_up e = true
       ∧ collection (after (step i w))
         = collection w
           ++ [mkMessage (oid w) (p_from p) (p_to p) (p_text p) (now e) false])
  ∨ (∃ s e from to, i = Recv s e (Read from to) ∧ s ∈ sockets w ∧ db_up e = true
       ∧ collection (after (step i w)) = (updateMany from to (collection w)).1).
Proof.
  destruct i as [s | s | s e ev]; [by left | by left |].
  simpl. destruct (decide (s ∈ sockets w)) as [Hin|]; [|by left].
  destruct ev as [u | to | p | from to]; simpl; [by left | by left | |].
  - destruct (db_up e) eqn:Hdb.
    + rewrite on_message_up by done. unfold after; simpl. rewrite save_up by done.
      right; left. by exists s, e, p.
    + rewrite on_message_down by done. unfold after; simpl. rewrite save_down by done.
      by left.
  - destruct (db_up e) eqn:Hdb.
    + rewrite on_read_up by done. right; right. by exists s, e, from, to.
    + rewrite on_read_down by done. by left.
Qed.

Lemma later_version_refl (m : Message) : later_version m m.
Proof. by repeat split. Qed.

Lemma later_version_trans (m1 m2 m3 : Message) :
  later_version m1 m2 → later_version m2 m3 → later_version m1 m3.
Proof.
  intros (? & ? & ? & ? & ? & ?) (? & ? & ? & ? & ? & ?).
  repeat split; try congruence. auto.
Qed.

Lemma later_version_step i w (k : nat) (m : Message) :
  collection w !! k = Some m →
  ∃ m', collection (after (step i w)) !! k = Some m' ∧ later_version m m'.
Proof.
  intros Hk.
  destruct (collection_step i w)
    as [-> | [(s & e & p & _ & _ & _ & ->) | (s & e & from & to & _ & _ & _ & ->)]].
  - exists m. split; [done | apply later_version_refl].
  - exists m. split; [|apply later_version_refl].
    rewrite lookup_app_l; [done|]. by eapply lookup_lt_Some.
  - rewrite updateMany_lookup, Hk. simpl.
    destruct (matches from to m); eexists; (split; [done|]).
    + by repeat split.
    + apply later_version_refl.
Qed.
End Steps.

(** ** Properties of every run *)

(** After any run the rooms hold connected sockets only, so whatever the next
    input is, every packet it makes the server write goes to a socket that is
    connected. *)
Theorem packets_only_to_connected_sockets (tr : list input) (i : input) :
  rooms_connected (world_after tr)
  ∧ Forall (λ pk, pk_socket pk ∈ sockets (world_after tr))
           (written (step i (world_after tr))).
Proof.
  split; [apply rooms_connected_run|].
  apply Forall_forall. intros pk (room & _ & Hm)%written_step.
  by apply (rooms_connected_run tr room).
Qed.

(** A saved message is never deleted, moved or rewritten by what comes later:
    it stays at its place in the collection with the same [_id], sender,
    recipient, text and timestamp, and once read it stays read. *)
Theorem saved_messages_stay (tr tr' : list input) (k : nat) (m : Message) :
  collection (world_after tr) !! k = Some m →
  ∃ m', collection (world_after (tr ++ tr')) !! k = Some m' ∧ later_version m m'.
Proof.
  intros Hk. induction tr' as [|i tr' IH] using rev_ind.
  - rewrite app_nil_r. exists m. split; [done | apply later_version_refl].
  - destruct IH as (m1 & Hk1 & Hv1).
    rewrite app_assoc, world_after_snoc.
    destruct (later_version_step i _ k m1 Hk1) as (m2 & Hk2 & Hv2).
    exists m2. split; [done|]. by eapply later_version_trans.
Qed.

(** alice's message is still there, read, after bob's socket has marked it
    and left. *)
Lemma saved_messages_stay_witness :
  collection (world_after (chat ++ [Recv "s1" (mkEnv 5 true) (MessageEv hi)])) !! 0
  = Some (mkMessage 0 "alice" "bob" "hi" 5 false)
  ∧ ∃ m', collection (world_after ((chat ++ [Recv "s1" (mkEnv 5 true) (MessageEv hi)])
                                    ++ [Recv "s2" (mkEnv 6 true) (Read "alice" "bob");
                                        Disconnect "s2"])) !! 0 = Some m'
        ∧ later_version (mkMessage 0 "alice" "bob" "hi" 5 false) m'.
Proof.
  assert (H0 : collection (world_after (chat ++ [Recv "s1" (mkEnv 5 true) (MessageEv hi)])) !! 0
               = Some (mkMessage 0 "alice" "bob" "hi" 5 false))
    by (vm_compute; reflexivity).
  split; [exact H0|].
  exact (saved_messages_stay _ [Recv "s2" (mkEnv 6 true) (Read "alice" "bob");
                                Disconnect "s2"] 0 _ H0).
Defined.

(** ** More on the handlers *)

(** Joining the same room again changes nothing: a second ["join"] with the
    same [userId] leaves the state of the first. *)
Theorem join_twice_is_join_once (w : world) (socket : SocketId) (e e' : env)
    (userId : string) :
  socket ∈ sockets w →
  step (Recv socket e' (Join userId)) (after (step (Recv socket e (Join userId)) w))
  = (Fulfilled tt, after (step (Recv socket e (Join userId)) w), []).
Proof.
  intros Hin. rewrite (step_connected w) by done.
  change (listeners socket e (Join userId) w) with (socket_join socket userId w).
  rewrite step_connected by done.
  unfold after, listeners, on_join, socket_join, members; simpl.
  rewrite lookup_insert_eq; simpl. rewrite insert_insert_eq.
  do 3 f_equal. f_equal. set_solver.
Qed.

(** alice's socket joins as alice a second time. *)
Lemma join_twice_is_join_once_witness :
  "s1" ∈ sockets (world_after [Connection "s1"])
  ∧ step (Recv "s1" (mkEnv 2 true) (Join "alice"))
         (after (step (Recv "s1" (mkEnv 1 true) (Join "alice"))
                   (world_after [Connection "s1"])))
    = (Fulfilled tt,
       after (step (Recv "s1" (mkEnv 1 true) (Join "alice"))
                (world_after [Connection "s1"])),
       []).
Proof.
  assert (Hin : "s1" ∈ sockets (world_after [Connection "s1"]))
    by (vm_compute; reflexivity).
  split; [exact Hin|].
  exact (join_twice_is_join_once _ "s1" (mkEnv 1 true) (mkEnv 2 true) "alice" Hin).
Defined.

(** A ["message"] event that is saved is written, as the saved document and
    once each, to exactly the connections in the room of [to]; the sender's
    own socket gets it only when it is in that room, and no room changes. *)
Theorem message_goes_to_the_room_of_to (w : world) (socket : SocketId) (e : env)
    (p : message_payload) :
  socket ∈ sockets w →
  db_up e = true →
  ∃ m, last (collection (after (step (Recv socket e (MessageEv p)) w))) = Some m
     ∧ msg_from m = p_from p ∧ msg_to m = p_to p ∧ msg_text m = p_text p
     ∧ (∀ pk, pk ∈ written (step (Recv socket e (MessageEv p)) w)
              ↔ pk_socket pk ∈ members w (p_to p)
                ∧ pk_event pk = "message"
                ∧ pk_args pk = [ADoc m])
     ∧ NoDup (written (step (Recv socket e (MessageEv p)) w))
     ∧ (socket ∉ members w (p_to p) →
        received socket (written (step (Recv socket e (MessageEv p)) w)) = [])
     ∧ rooms (after (step (Recv socket e (MessageEv p)) w)) = rooms w.
Proof.
  intros Hin Hup. rewrite step_connected by done.
  change (listeners socket e (MessageEv p) w) with (on_message e p w).
  rewrite on_message_up by done.
  exists (mkMessage (oid w) (p_from p) (p_to p) (p_text p) (now e) false).
  unfold after at 1 3; simpl. rewrite save_up by done. simpl.
  assert (Hpk : ∀ pk,
    pk ∈ (λ s, mkPacket s "message"
                 [ADoc (mkMessage (oid w) (p_from p) (p_to p) (p_text p) (now e) false)])
           <$> elements (members w (p_to p))
    ↔ pk_socket pk ∈ members w (p_to p) ∧ pk_event pk = "message"
      ∧ pk_args pk
        = [ADoc (mkMessage (oid w) (p_from p) (p_to p) (p_text p) (now e) false)]).
  { intros pk. apply (elem_of_io_to_emit w (p_to p) "message"). }
  split; [apply last_snoc|]. do 3 (split; [done|]). split; [exact Hpk|].
  split; [apply (io_to_emit_NoDup w (p_to p) "message")|]. split; [|done].
  intros Hnot. apply received_nil. intros pk Hw <-.
  apply Hpk in Hw as (Hm & _). by apply Hnot.
Qed.

(** alice's socket sends [hi] in the sample conversation. *)
Lemma message_goes_to_the_room_of_to_witness :
  "s1" ∈ sockets (world_after chat)
  ∧ db_up (mkEnv 5 true) = true
  ∧ ∃ m, last (collection (after (step (Recv "s1" (mkEnv 5 true) (MessageEv hi))
                                    (world_after chat)))) = Some m
       ∧ msg_from m = p_from hi.
Proof.
  assert (Hin : "s1" ∈ sockets (world_after chat)) by (vm_compute; reflexivity).
  split; [exact Hin|]. split; [reflexivity|].
  destruct (message_goes_to_the_room_of_to (world_after chat) "s1" (mkEnv 5 true) hi
              Hin eq_refl) as (m & Hlast & Hfrom & _).
  exists m. split; [exact Hlast | exact Hfrom].
Defined.

(** A ["read"] event whose update fails stops there: no flag is set, no
    receipt is written, and the handler is rejected with the storage error. *)
Theorem failed_update_sends_no_receipt (w : world) (socket : SocketId) (e : env)
    (from to : string) :
  socket ∈ sockets w →
  db_up e = false →
  step (Recv socket e (Read from to)) w = (Rejected StorageError, w, []).
Proof.
  intros Hin Hdown. rewrite step_connected by done.
  change (listeners socket e (Read from to) w) with (on_read e from to w).
  by apply on_read_down.
Qed.

(** bob's socket reports alice's messages read while the database is down. *)
Lemma failed_update_sends_no_receipt_witness :
  "s2" ∈ sockets (world_after chat)
  ∧ db_up (mkEnv 4 false) = false
  ∧ step (Recv "s2" (mkEnv 4 false) (Read "alice" "bob")) (world_after chat)
    = (Rejected StorageError, world_after chat, []).
Proof.
  assert (Hin : "s2" ∈ sockets (world_after chat)) by (vm_compute; reflexivity).
  split; [exact Hin|]. split; [reflexivity|].
  exact (failed_update_sends_no_receipt _ "s2" (mkEnv 4 false) "alice" "bob" Hin eq_refl).
Defined.

(** ** The server with the shipped client *)

Section Client.
Implicit Types (w : world) (tr : list input) (i : input).

Lemma App_target (s : SocketId) (e : env) (ev : event) (room : Room) :
  App_emits ev → target (Recv s e ev) = Some room → room = "user2".
Proof.
  intros [-> | [-> | (text & ->)]]; simpl; congruence.
Qed.

Lemma App_step i w :
  match i with
  | Connection s | Disconnect s => s ≠ "user2"
  | Recv s _ ev => s ≠ "user2" ∧ App_emits ev
  end →
  quiet w → quiet (after (step i w)) ∧ written (step i w) = [].
Proof.
  intros Hi [Hroom Hcoll]. split; [split|].
  - intros c. rewrite members_step.
    destruct i as [s | s | s e ev].
    + intros [[_ Hs] | Hc]; [by apply Hi | by apply (Hroom c)].
    + intros [_ Hc]. by apply (Hroom c).
    + destruct Hi as [_ [-> | [-> | (text & ->)]]]; simpl;
        [intros [(_ & _ & [=]) | Hc] | intros Hc ..]; by apply (Hroom c).
  - destruct i as [s | s | s e ev]; [done | done |].
    simpl. destruct (decide (s ∈ sockets w)); [|done].
    destruct Hi as [_ [-> | [-> | (text & ->)]]]; simpl; [done | done |].
    destruct (db_up e) eqn:Hdb.
    + rewrite on_message_up by done. unfold after; simpl. rewrite save_up by done.
      simpl. apply Forall_app. split; [done|]. by apply Forall_singleton.
    + rewrite on_message_down by done. unfold after; simpl. by rewrite save_down.
  - apply elem_of_nil_inv. intros pk (room & Htarget & Hm)%written_step.
    destruct i as [s | s | s e ev]; [done | done |].
    destruct Hi as [_ Hev]. rewrite (App_target s e ev room Hev Htarget) in Hm.
    by apply (Hroom pk.(pk_socket)).
Qed.

Lemma App_run_quiet tr :
  App_run tr → quiet (world_after tr) ∧ (run tr).2 = [].
Proof.
  induction tr as [|i tr IH] using rev_ind; intros Hrun.
  - split; [split|]; [|done|done].
    intros c. unfold world_after, run, members; simpl.
    rewrite lookup_empty; simpl. set_solver.
  - unfold App_run in Hrun, IH.
    apply Forall_app in Hrun as [Htr Hi]. rewrite Forall_singleton in Hi.
    destruct (IH Htr) as [Hq Hout].
    destruct (App_step i (world_after tr) Hi Hq) as [Hq' Hw].
    rewrite world_after_snoc, run_snoc. split; [done|].
    unfold exec; simpl. fold (world_after tr). by rewrite Hout, Hw.
Qed.

(** With the shipped client on every socket nothing is ever delivered: the
    component joins as ["user1"] and writes to ["user2"], so in a run of such
    clients the server writes no packet at all, and the messages it stores
    are all from ["user1"] to ["user2"] and stay unread. *)
Theorem App_clients_receive_nothing tr :
  App_run tr →
  (run tr).2 = []
  ∧ Forall (λ m, msg_from m = "user1" ∧ msg_to m = "user2" ∧ msg_read m = false)
           (collection (world_after tr)).
Proof.
  intros Hrun. destruct (App_run_quiet tr Hrun) as [[_ Hcoll] Hout]. by split.
Qed.
End Client.

(** Two browsers open the page; one types and sends, the other leaves. *)
Lemma App_clients_receive_nothing_witness :
  App_run [ Connection "s1"; Recv "s1" (mkEnv 1 true) App_mount;
            Connection "s2"; Recv "s2" (mkEnv 2 true) App_mount;
            Recv "s1" (mkEnv 3 true) App_keyDown;
            Recv "s1" (mkEnv 4 true) (App_sendMessage "hello");
            Disconnect "s2" ]
  ∧ (run [ Connection "s1"; Recv "s1" (mkEnv 1 true) App_mount;
           Connection "s2"; Recv "s2" (mkEnv 2 true) App_mount;
           Recv "s1" (mkEnv 3 true) App_keyDown;
           Recv "s1" (mkEnv 4 true) (App_sendMessage "hello");
           Disconnect "s2" ]).2 = [].
Proof.
  assert (Hrun : App_run [ Connection "s1"; Recv "s1" (mkEnv 1 true) App_mount;
            Connection "s2"; Recv "s2" (mkEnv 2 true) App_mount;
            Recv "s1" (mkEnv 3 true) App_keyDown;
            Recv "s1" (mkEnv 4 true) (App_sendMessage "hello");
            Disconnect "s2" ]).
  { unfold App_run, App_emits.
    repeat (apply Forall_cons_2); [..|by apply Forall_nil]; simpl;
      try discriminate; (split; [discriminate|]).
    - left; reflexivity.
    - left; reflexivity.
    - right; left; reflexivity.
    - right; right; eexists; reflexivity. }
  split; [exact Hrun|].
  exact (proj1 (App_clients_receive_nothing _ Hrun)).
Defined.

(** ** Where documents and flags come from *)

(** The store never holds a message that nobody sent: every document in the
    collection after a run has the sender, recipient and text of a
    ["message"] event of that run, and the clock of that event as timestamp. *)
Theorem stored_messages_were_sent (tr : list input) (m : Message) :
  m ∈ collection (world_after tr) →
  ∃ s e p, Recv s e (MessageEv p) ∈ tr
    ∧ db_up e = true
    ∧ msg_from m = p_from p ∧ msg_to m = p_to p ∧ msg_text m = p_text p
    ∧ msg_timestamp m = now e.
Proof.
  revert m. induction tr as [|i tr IH] using rev_ind; intros m Hm.
  - by apply elem_of_nil in Hm.
  - assert (Hold : ∀ m0, m0 ∈ collection (world_after tr) →
              msg_from m = msg_from m0 → msg_to m = msg_to m0 →
              msg_text m = msg_text m0 → msg_timestamp m = msg_timestamp m0 →
              ∃ s e p, Recv s e (MessageEv p) ∈ tr ++ [i]
                ∧ db_up e = true
                ∧ msg_from m = p_from p ∧ msg_to m = p_to p ∧ msg_text m = p_text p
                ∧ msg_timestamp m = now e).
    { intros m0 Hm0 -> -> -> ->.
      destruct (IH m0 Hm0) as (s & e & p & Hin & Hrest).
      exists s, e, p. split; [|done]. apply elem_of_app. by left. }
    rewrite world_after_snoc in Hm.
    destruct (collection_step i (world_after tr))
      as [Hc | [(s & e & p & -> & _ & Hup & Hc)
               | (s & e & from & to & _ & _ & _ & Hc)]];
      rewrite Hc in Hm.
    + by apply (Hold m).
    + apply elem_of_app in Hm as [Hm | ->%list_elem_of_singleton].
      * by apply (Hold m).
      * exists s, e, p. split; [|done].
        apply elem_of_app. right. by apply list_elem_of_singleton.
    + unfold updateMany in Hm; simpl in Hm.
      apply list_elem_of_fmap in Hm as (m0 & -> & Hm0).
      apply (Hold m0 Hm0); by destruct (matches from to m0).
Qed.

(** The message stored in the sample conversation is the one alice sent. *)
Lemma stored_messages_were_sent_witness :
  mkMessage 0 "alice" "bob" "hi" 5 false
    ∈ collection (world_after (chat ++ [Recv "s1" (mkEnv 5 true) (MessageEv hi)]))
  ∧ ∃ s e p, Recv s e (MessageEv p) ∈ chat ++ [Recv "s1" (mkEnv 5 true) (MessageEv hi)]
      ∧ db_up e = true
      ∧ p_from p = "alice".
Proof.
  assert (Hin : mkMessage 0 "alice" "bob" "hi" 5 false
            ∈ collection (world_after (chat ++ [Recv "s1" (mkEnv 5 true) (MessageEv hi)]))).
  { vm_compute. apply list_elem_of_here. }
  split; [exact Hin|].
  destruct (stored_messages_were_sent _ _ Hin) as (s & e & p & Hp & Hup & Hfrom & _).
  exists s, e, p. split; [exact Hp|]. split; [exact Hup|]. symmetry. exact Hfrom.
Defined.



(** ** Presence *)

(** C3, as the code has it: a ["join"] only adds. After a connected socket
    processes [join(userId)] it is in the room of [userId] and every room has
    the members it had, so a socket that was in another user's room is now in
    both. The disconnect of a socket takes it out of all rooms, and nothing
    else takes any socket out of any room. *)
Theorem join_adds_and_keeps (w : world) (socket : SocketId) (e : env)
    (userId : string) :
  socket ∈ sockets w →
  outcome (step (Recv socket e (Join userId)) w) = Fulfilled tt
  ∧ written (step (Recv socket e (Join userId)) w) = []
  ∧ (∀ c room, c ∈ members (after (step (Recv socket e (Join userId)) w)) room
               ↔ (c = socket ∧ room = userId) ∨ c ∈ members w room)
  ∧ (∀ old, socket ∈ members w old →
            socket ∈ members (after (step (Recv socket e (Join userId)) w)) old
            ∧ socket ∈ members (after (step (Recv socket e (Join userId)) w)) userId)
  ∧ (∀ c room, c ∈ members (after (step (Disconnect socket) w)) room
               ↔ c ≠ socket ∧ c ∈ members w room)
  ∧ (∀ i c room, c ∈ members w room → c ∉ members (after (step i w)) room →
                 i = Disconnect c).
Proof.
  intros Hin. rewrite step_connected by done.
  change (listeners socket e (Join userId) w) with (socket_join socket userId w).
  split; [done|]. split; [done|].
  split; [intros c room; apply members_socket_join|].
  split; [|split].
  - intros old Hold. rewrite !members_socket_join. naive_solver.
  - intros c room. apply members_disconnect.
  - intros i c room Hc Hgone. rewrite members_step in Hgone.
    destruct i as [s | s | s e' ev].
    + destruct Hgone. by right.
    + destruct (decide (c = s)) as [->|Hne]; [done|]. by destruct Hgone.
    + destruct ev; destruct Hgone; by (done || right).
Qed.

(** alice's socket joins again as bob in the sample conversation. *)
Lemma join_adds_and_keeps_witness :
  "s1" ∈ sockets (world_after chat)
  ∧ ∀ old, "s1" ∈ members (world_after chat) old →
      "s1" ∈ members (after (step (Recv "s1" (mkEnv 3 true) (Join "bob"))
                               (world_after chat))) old
      ∧ "s1" ∈ members (after (step (Recv "s1" (mkEnv 3 true) (Join "bob"))
                                 (world_after chat))) "bob".
Proof.
  assert (Hin : "s1" ∈ sockets (world_after chat)) by (vm_compute; reflexivity).
  split; [exact Hin|].
  exact (proj1 (proj2 (proj2 (proj2
    (join_adds_and_keeps (world_after chat) "s1" (mkEnv 3 true) "bob" Hin))))).
Defined.

(** C3, as stated, fails: after alice's socket joins again as bob it is in the
    presence entry of alice and in that of bob. *)
Lemma rejoined_socket_in_two_rooms :
  "s1" ∈ members (world_after rejoin) "alice"
  ∧ "s1" ∈ members (world_after rejoin) "bob"
  ∧ "alice" ≠ "bob".
Proof.
  split; [vm_compute; reflexivity|]. split; [vm_compute; reflexivity|]. discriminate.
Qed.
